(** * Verification of the bio-seq codec layer

    Shallow embedding of
    - [src/bio-seq/src/codec/dna.rs]: the 2-bit [Dna] codec, its complement,
      [Seq<Dna>::set] and the bincode adapter of [Seq<Dna>];
    - [src/bio-seq-derive/src/codec.rs]: [parse_width] and [parse_variants]
      of the [Codec] derive macro.

    Machine integers ([u8], [usize]) are [Z] values with their range and
    wrap-around written out. *)

From Stdlib Require Import ZArith List Bool Lia String.
Import ListNotations.
Open Scope Z_scope.

(** ** Outcomes of Rust code

    [Val] is a normal return, [Panic] a panic (a failed [debug_assert!],
    an [unwrap] on an error, or an arithmetic overflow under overflow
    checks), [Undefined] undefined behaviour (e.g. a [transmute] to an
    invalid enum discriminant). *)
Inductive outcome (A : Type) : Type :=
| Val (a : A)
| Panic
| Undefined.
Arguments Val {A} a.
Arguments Panic {A}.
Arguments Undefined {A}.

Definition bind {A B} (m : outcome A) (f : A -> outcome B) : outcome B :=
  match m with
  | Val a => f a
  | Panic => Panic
  | Undefined => Undefined
  end.

Notation "x <- m ;; k" := (bind m (fun x => k))
  (at level 61, m at next level, right associativity).

(** [u8] arithmetic. *)
Definition u8_max : Z := 255.

(** [a << s] on [u8]: the bits shifted out are discarded. *)
Definition u8_shl (a s : Z) : Z := Z.shiftl a s mod 256.

(** [a + b] on [u8]: with overflow checks (debug builds) an overflow
    panics, without them (release builds) it wraps. *)
Definition u8_add (overflow_checks : bool) (a b : Z) : outcome Z :=
  if a + b <=? u8_max then Val (a + b)
  else if overflow_checks then Panic else Val ((a + b) mod 256).

(** ** The [Dna] codec (dna.rs) *)
Module DnaCodec.

Inductive Dna : Type := A | C | G | T.

Definition Dna_eqb (x y : Dna) : bool :=
  match x, y with
  | A, A | C, C | G, G | T, T => true
  | _, _ => false
  end.

(** [#[repr(u8)]]: the discriminants [A = 0b00, C = 0b01, G = 0b10, T = 0b11]. *)
Definition to_bits (d : Dna) : Z :=
  match d with A => 0 | C => 1 | G => 2 | T => 3 end.

(** [std::mem::transmute::<u8, Dna>]: defined only on the four
    discriminants, undefined behaviour otherwise. *)
Definition transmute_u8_dna (b : Z) : outcome Dna :=
  if b =? 0 then Val A
  else if b =? 1 then Val C
  else if b =? 2 then Val G
  else if b =? 3 then Val T
  else Undefined.

Definition BITS : Z := 2.

(** [fn unsafe_from_bits(b: u8) -> Self { debug_assert!(b < 4);
    unsafe { transmute(b & 0b11) } }]; [debug_assertions] tells whether
    the [debug_assert!] is compiled in. *)
Definition unsafe_from_bits (debug_assertions : bool) (b : Z) : outcome Dna :=
  if debug_assertions && negb (b <? 4) then Panic
  else transmute_u8_dna (Z.land b 3).

(** [fn try_from_bits(b: u8) -> Option<Self>]. *)
Definition try_from_bits (b : Z) : outcome (option Dna) :=
  if b <? 4 then (d <- transmute_u8_dna b ;; Val (Some d)) else Val None.

(** [fn unsafe_from_ascii(b: u8) -> Self {
    Dna::unsafe_from_bits(((b << 1) + b) >> 3) }]; both kinds of
    build checks (overflow checks and debug assertions) are governed by
    [debug]. *)
Definition unsafe_from_ascii_raw (debug : bool) (b : Z) : outcome Z :=
  s <- u8_add debug (u8_shl b 1) b ;; Val (Z.shiftr s 3).

Definition unsafe_from_ascii (debug : bool) (b : Z) : outcome Dna :=
  raw <- unsafe_from_ascii_raw debug b ;; unsafe_from_bits debug raw.

(** ASCII codes of the four letters. *)
Definition ascii_A : Z := 65.
Definition ascii_C : Z := 67.
Definition ascii_G : Z := 71.
Definition ascii_T : Z := 84.

(** [fn try_from_ascii(c: u8) -> Option<Self>]. *)
Definition try_from_ascii (c : Z) : option Dna :=
  if c =? ascii_A then Some A
  else if c =? ascii_C then Some C
  else if c =? ascii_G then Some G
  else if c =? ascii_T then Some T
  else None.

(** [fn to_char(self) -> char], as the code point of the character. *)
Definition to_char (d : Dna) : Z :=
  match d with A => ascii_A | C => ascii_C | G => ascii_G | T => ascii_T end.

Definition items : list Dna := [A; C; G; T].

(** [impl ComplementMut for Dna]:
    the new value of [self] is
    [Dna::unsafe_from_bits(self as u8 ^ 0b11)]. *)
Definition comp (debug_assertions : bool) (d : Dna) : outcome Dna :=
  unsafe_from_bits debug_assertions (Z.lxor (to_bits d) 3).

End DnaCodec.

(** ** The packed sequence [Seq<Dna>] *)
Module PackedSeq.
Import DnaCodec.

(** Width of a machine word ([usize]). *)
Definition word_bits : Z := 64.
Definition usize_modulus : Z := 2 ^ 64.

(** [ceil(a / b)] for [b > 0]. *)
Definition ceil_div (a b : Z) : Z := (a + b - 1) / b.

(** Replace the element at [i] of a list; out of range nothing changes. *)
Fixpoint list_set {X} (l : list X) (i : nat) (x : X) : list X :=
  match l, i with
  | [], _ => []
  | _ :: r, O => x :: r
  | y :: r, S i' => y :: list_set r i' x
  end.

(** The backing bit vector: [bv_len] live bits stored in the words
    [bv_words], bit [k] being bit [k mod 64] of word [k / 64]. *)
Record BitVec : Type := mkBitVec { bv_len : Z; bv_words : list Z }.

Definition word_at (v : BitVec) (k : Z) : Z :=
  nth (Z.to_nat (k / word_bits)) (bv_words v) 0.

(** Reading bit [k] of the bit slice. *)
Definition bit (v : BitVec) (k : Z) : bool :=
  Z.testbit (word_at v k) (k mod word_bits).

(** [BitSlice::set(k, value)]: panics when [k] is out of bounds,
    otherwise sets or clears one bit of one word. *)
Definition bitslice_set (v : BitVec) (k : Z) (value : bool) : outcome BitVec :=
  if (0 <=? k) && (k <? bv_len v) then
    let w := word_at v k in
    let w' := if value then Z.setbit w (k mod word_bits)
              else Z.clearbit w (k mod word_bits) in
    Val (mkBitVec (bv_len v)
           (list_set (bv_words v) (Z.to_nat (k / word_bits)) w'))
  else Panic.

(** [struct Seq<A> { bv: BitVec }]. *)
Record Seq : Type := mkSeq { bv : BitVec }.

(** Modelled from the spec: [Seq::len] (seq.rs, not among the sources):
    the number of symbols, i.e. the number of live bits over [BITS]. *)
Definition len (s : Seq) : Z := bv_len (bv s) / BITS.

(** The [BITS]-wide slot of symbol [i], most-significant bit first. *)
Definition slot (s : Seq) (i : Z) : Z :=
  2 * Z.b2z (bit (bv s) (2 * i)) + Z.b2z (bit (bv s) (2 * i + 1)).

(** Modelled from the spec: [Seq::get] (seq.rs, not among the sources):
    reads the slot of [i] and converts it with [unsafe_from_bits]. *)
Definition get (debug_assertions : bool) (s : Seq) (i : Z) : outcome Dna :=
  if (0 <=? i) && (i <? len s) then unsafe_from_bits debug_assertions (slot s i)
  else Panic.

(** [impl Seq<Dna> { pub fn set(&mut self, pos: usize, base: Dna) }]. *)
Definition set (s : Seq) (pos : Z) (base : Dna) : outcome Seq :=
  let offset := Z.shiftl pos 1 mod usize_modulus in
  let val := to_bits base in
  v1 <- bitslice_set (bv s) offset (negb (Z.land val 2 =? 0)) ;;
  v2 <- bitslice_set v1 (offset + 1) (negb (Z.land val 1 =? 0)) ;;
  Val (mkSeq v2).

(** Well-formedness of a [Seq<Dna>]: a whole number of 2-bit slots, a
    length that fits a [usize], exactly the words that cover the live
    bits (what [as_raw_slice] exposes), every word a [usize]. *)
Definition seq_wfb (s : Seq) : bool :=
  let v := bv s in
  (0 <=? bv_len v) && (bv_len v mod BITS =? 0) && (bv_len v <? usize_modulus)
  && (Z.of_nat (List.length (bv_words v)) =? ceil_div (bv_len v) word_bits)
  && forallb (fun w => (0 <=? w) && (w <? usize_modulus)) (bv_words v).

(** Symbol-wise equality ([PartialEq] compares the live bits only). *)
Definition seq_eqb (s1 s2 : Seq) : bool :=
  (bv_len (bv s1) =? bv_len (bv s2))
  && forallb (fun k => Bool.eqb (bit (bv s1) (Z.of_nat k)) (bit (bv s2) (Z.of_nat k)))
       (seq 0 (Z.to_nat (bv_len (bv s1)))).

(** Modelled from the spec: [BitVec::push] (bitvec, used by the
    construction of a [Seq] from text): a fresh zero word is appended when
    the live bits fill the last word. *)
Definition bv_push (v : BitVec) (b : bool) : BitVec :=
  let k := bv_len v in
  let words := if k mod word_bits =? 0 then bv_words v ++ [0] else bv_words v in
  let w := nth (Z.to_nat (k / word_bits)) words 0 in
  let w' := if b then Z.setbit w (k mod word_bits) else w in
  mkBitVec (k + 1) (list_set words (Z.to_nat (k / word_bits)) w').

(** Modelled from the spec: pushing a symbol appends [to_bits] of it in
    the slot order of [get] (most-significant bit first). *)
Definition push (s : Seq) (d : Dna) : Seq :=
  let v1 := bv_push (bv s) (Z.testbit (to_bits d) 1) in
  mkSeq (bv_push v1 (Z.testbit (to_bits d) 0)).

Definition empty : Seq := mkSeq (mkBitVec 0 []).

Definition from_symbols (ds : list Dna) : Seq := fold_left push ds empty.

(** Modelled from the spec: building a sequence from text (the [dna!]
    macro): every byte is read with [try_from_ascii]. *)
Fixpoint parse_text (bytes : list Z) : option (list Dna) :=
  match bytes with
  | [] => Some []
  | b :: r =>
      match try_from_ascii b, parse_text r with
      | Some d, Some ds => Some (d :: ds)
      | _, _ => None
      end
  end.

Definition bytes_of_string (str : string) : list Z :=
  map (fun c => Z.of_nat (Ascii.nat_of_ascii c)) (list_ascii_of_string str).

Definition from_text (str : string) : option Seq :=
  match parse_text (bytes_of_string str) with
  | Some ds => Some (from_symbols ds)
  | None => None
  end.

(** Modelled from the spec: [Seq::into_raw]: the backing words. *)
Definition into_raw (s : Seq) : list Z := bv_words (bv s).

(** Modelled from the spec: [Seq::from_raw(len, bits)]: fails unless
    [bits] holds at least [ceil(len * BITS / word_width)] words, and then
    keeps the [len * BITS] first bits. *)
Definition from_raw (n : Z) (words : list Z) : option Seq :=
  let needed := ceil_div (n * BITS) word_bits in
  if Z.of_nat (List.length words) <? needed then None
  else Some (mkSeq (mkBitVec (n * BITS) (firstn (Z.to_nat needed) words))).

End PackedSeq.

(** ** The bincode adapter of [Seq<Dna>]

    The wire format is the one of bincode's [config::standard()]
    (external crate): little-endian, variable-length integers. A [u64]
    (and so a [usize]) below 251 is one byte; otherwise a marker byte
    251, 252 or 253 is followed by 2, 4 or 8 little-endian bytes. A tuple
    is its fields in order, a [Vec] its length followed by its items. *)
Module Bincode.
Import DnaCodec PackedSeq.

Inductive DecodeError : Type :=
| UnexpectedEnd
| InvalidIntegerType
| Other (msg : string).

Definition result (X : Type) : Type := (X + DecodeError)%type.

Definition SINGLE_BYTE_MAX : Z := 250.
Definition U16_BYTE : Z := 251.
Definition U32_BYTE : Z := 252.
Definition U64_BYTE : Z := 253.

Fixpoint le_bytes (k : nat) (n : Z) : list Z :=
  match k with
  | O => []
  | S k' => n mod 256 :: le_bytes k' (n / 256)
  end.

Definition varint_encode_u64 (n : Z) : list Z :=
  if n <=? SINGLE_BYTE_MAX then [n]
  else if n <=? 2 ^ 16 - 1 then U16_BYTE :: le_bytes 2 n
  else if n <=? 2 ^ 32 - 1 then U32_BYTE :: le_bytes 4 n
  else U64_BYTE :: le_bytes 8 n.

Fixpoint le_read (k : nat) (bytes : list Z) : result (Z * list Z) :=
  match k with
  | O => inl (0, bytes)
  | S k' =>
      match bytes with
      | [] => inr UnexpectedEnd
      | b :: r =>
          match le_read k' r with
          | inl (v, r') => inl (b + 256 * v, r')
          | inr e => inr e
          end
      end
  end.

Definition varint_decode_u64 (bytes : list Z) : result (Z * list Z) :=
  match bytes with
  | [] => inr UnexpectedEnd
  | b :: r =>
      if b <=? SINGLE_BYTE_MAX then inl (b, r)
      else if b =? U16_BYTE then le_read 2 r
      else if b =? U32_BYTE then le_read 4 r
      else if b =? U64_BYTE then le_read 8 r
      else inr InvalidIntegerType
  end.

Definition encode_usize_vec (ws : list Z) : list Z :=
  varint_encode_u64 (Z.of_nat (List.length ws)) ++ flat_map varint_encode_u64 ws.

Fixpoint decode_usizes (count : nat) (bytes : list Z) : result (list Z * list Z) :=
  match count with
  | O => inl ([], bytes)
  | S c =>
      match varint_decode_u64 bytes with
      | inl (w, r) =>
          match decode_usizes c r with
          | inl (ws, r') => inl (w :: ws, r')
          | inr e => inr e
          end
      | inr e => inr e
      end
  end.

Definition decode_usize_vec (bytes : list Z) : result (list Z * list Z) :=
  match varint_decode_u64 bytes with
  | inl (n, r) => decode_usizes (Z.to_nat n) r
  | inr e => inr e
  end.

(** [impl bincode::Encode for Seq<Dna>]:
    [Encode::encode(&(self.len(), self.into_raw()), encoder)]. *)
Definition encode (s : Seq) : list Z :=
  varint_encode_u64 (len s) ++ encode_usize_vec (into_raw s).

Definition reconstruction_failed : string :=
  "Failed to recreate the DNA sequence from its raw parts".

(** [impl bincode::Decode for Seq<Dna>]: decode [(usize, Vec<usize>)],
    then [Self::from_raw(len, &bits).ok_or(DecodeError::Other(..))];
    the remaining input is returned with the value. *)
Definition decode (bytes : list Z) : result (Seq * list Z) :=
  match varint_decode_u64 bytes with
  | inr e => inr e
  | inl (n, r) =>
      match decode_usize_vec r with
      | inr e => inr e
      | inl (ws, r') =>
          match from_raw n ws with
          | Some s => inl (s, r')
          | None => inr (Other reconstruction_failed)
          end
      end
  end.

End Bincode.

(** ** The [Codec] derive macro (bio-seq-derive/src/codec.rs) *)
Module Derive.

(** Literals as [syn] parses them: an integer literal carries its
    base-10 value, a byte literal its byte, a character literal its code
    point. *)
Inductive Lit : Type :=
| LitInt (v : Z)
| LitByte (b : Z)
| LitChar (c : Z)
| LitStr (s : string)
| LitBool (b : bool).

(** The tokens inside an attribute's parentheses: a comma-separated list
    of literals, or anything else. *)
Inductive AttrArgs : Type :=
| Lits (l : list Lit)
| OtherTokens.

Record Attribute : Type := mkAttr { attr_path : string; attr_args : AttrArgs }.

(** Errors returned as [syn::Error]. *)
Inductive SynError : Type :=
| ParseError
    (* a failed [parse_args] / [parse_args_with] *)
| WidthTooSmall (min : Z)
    (* "Bit width is not large enough encode all variants (min: {min_width})" *)
| InvalidDiscriminantType
    (* "Codec derivations require byte or integer discriminants" *)
| MissingDiscriminant.
    (* "Codec derivations require discriminants" *)

(** A [Result<X, syn::Error>] computed by code that may also panic. *)
Definition res (X : Type) : Type := outcome (X + SynError).

(** [attr.parse_args::<syn::LitInt>()]. *)
Definition parse_lit_int (a : Attribute) : option Z :=
  match attr_args a with Lits [LitInt v] => Some v | _ => None end.

(** [attr.parse_args::<syn::LitChar>()]. *)
Definition parse_lit_char (a : Attribute) : option Z :=
  match attr_args a with Lits [LitChar c] => Some c | _ => None end.

(** [attr.parse_args_with(Punctuated::<ExprLit, Token![,]>::parse_terminated)]. *)
Definition parse_expr_lits (a : Attribute) : option (list Lit) :=
  match attr_args a with Lits l => Some l | OtherTokens => None end.

(** [lit.base10_parse::<u8>().unwrap()]. *)
Definition base10_parse_u8_unwrap (v : Z) : outcome Z :=
  if (0 <=? v) && (v <=? u8_max) then Val v else Panic.

(** [f32::ceil(f32::log2(f32::from(n))) as u8] for a [u8] [n]. The
    conversion to [f32] is exact; for [1 <= n <= 255] the [f32] logarithm
    is exact at powers of two and lies strictly between two consecutive
    integers elsewhere, so the result is the ceiling of [log2 n];
    [log2(0.0)] is [-inf], which [ceil] keeps and the saturating
    [as u8] cast turns into [0]. *)
Definition f32_ceil_log2_as_u8 (n : Z) : Z :=
  if n =? 0 then 0 else Z.log2_up n.

Fixpoint find_bits (attrs : list Attribute) (min_width : Z) : res Z :=
  match attrs with
  | [] => Val (inl min_width)
  | attr :: rest =>
      if String.eqb (attr_path attr) "bits" then
        match parse_lit_int attr with
        | Some w =>
            chosen_width <- base10_parse_u8_unwrap w ;;
            if chosen_width <? min_width then Val (inr (WidthTooSmall min_width))
            else Val (inl chosen_width)
        | None => Val (inr ParseError)
        end
      else find_bits rest min_width
  end.

(** [pub(crate) fn parse_width(attrs, max_variant: u8) -> Result<u8, syn::Error>];
    [overflow_checks] tells whether [max_variant + 1] is checked. *)
Definition parse_width (overflow_checks : bool) (attrs : list Attribute)
    (max_variant : Z) : res Z :=
  n <- u8_add overflow_checks max_variant 1 ;;
  find_bits attrs (f32_ceil_log2_as_u8 n).

(** Expressions that may appear as discriminants. *)
Inductive Expr : Type :=
| ExprLit (l : Lit)
| ExprOther.

(** A variant: its identifier (as the bytes of its UTF-8 text), its
    discriminant and its attributes. *)
Record Variant : Type :=
  mkVariant { v_ident : string; v_discriminant : option Expr; v_attrs : list Attribute }.

(** The left-hand side of a generated match arm: the [u8] discriminant
    ([#value]) or an alternative literal of an [alt] attribute ([#d]). *)
Inductive Pattern : Type :=
| PatU8 (v : Z)
| PatLit (l : Lit).

(** [struct CodecVariants]: [to_chars] holds the arms
    [Self::#ident => #char_repr], [from_chars] the arms
    [#char_repr => Some(Self::#ident)], [alts] the arms
    [#p => Some(Self::#ident)] and [unsafe_alts] the arms
    [#p => Self::#ident]. *)
Record CodecVariants : Type := mkCodecVariants {
  idents : list string;
  to_chars : list (string * Z);
  from_chars : list (Z * string);
  alts : list (Pattern * string);
  unsafe_alts : list (Pattern * string);
  max_discriminant : Z }.

(** [ident.to_string().bytes().next().unwrap()]. *)
Definition first_byte_unwrap (s : string) : outcome Z :=
  match s with
  | EmptyString => Panic
  | String c _ => Val (Z.of_nat (Ascii.nat_of_ascii c))
  end.

(** The loop over [variant.attrs]: [display] replaces [char_repr] by the
    character cast [as u8] (its low byte), [alt] appends one arm per
    literal. *)
Fixpoint scan_attrs (ident : string) (attrs : list Attribute) (char_repr : Z)
    (alts unsafe_alts : list (Pattern * string))
    : res (Z * list (Pattern * string) * list (Pattern * string)) :=
  match attrs with
  | [] => Val (inl (char_repr, alts, unsafe_alts))
  | attr :: rest =>
      if String.eqb (attr_path attr) "display" then
        match parse_lit_char attr with
        | Some c => scan_attrs ident rest (c mod 256) alts unsafe_alts
        | None => Val (inr ParseError)
        end
      else if String.eqb (attr_path attr) "alt" then
        match parse_expr_lits attr with
        | Some discs =>
            scan_attrs ident rest char_repr
              (alts ++ map (fun d => (PatLit d, ident)) discs)
              (unsafe_alts ++ map (fun d => (PatLit d, ident)) discs)
        | None => Val (inr ParseError)
        end
      else scan_attrs ident rest char_repr alts unsafe_alts
  end.

(** The discriminant of a variant as the [match] on [expr_lit.lit]
    computes it. *)
Definition discriminant_value (v : Variant) : res Z :=
  match v_discriminant v with
  | Some (ExprLit l) =>
      match l with
      | LitByte b => Val (inl b)
      | LitInt n => x <- base10_parse_u8_unwrap n ;; Val (inl x)
      | _ => Val (inr InvalidDiscriminantType)
      end
  | _ => Val (inr MissingDiscriminant)
  end.

(** One iteration of [for variant in variants]. *)
Definition step (acc : CodecVariants) (v : Variant) : res CodecVariants :=
  let ident := v_ident v in
  dv <- discriminant_value v ;;
  match dv with
  | inr e => Val (inr e)
  | inl value =>
      let alts1 := alts acc ++ [(PatU8 value, ident)] in
      let ualts1 := unsafe_alts acc ++ [(PatU8 value, ident)] in
      let maxd := Z.max (max_discriminant acc) value in
      c0 <- first_byte_unwrap ident ;;
      sc <- scan_attrs ident (v_attrs v) c0 alts1 ualts1 ;;
      match sc with
      | inr e => Val (inr e)
      | inl (char_repr, alts2, ualts2) =>
          Val (inl (mkCodecVariants (idents acc ++ [ident])
                      (to_chars acc ++ [(ident, char_repr)])
                      (from_chars acc ++ [(char_repr, ident)])
                      alts2 ualts2 maxd))
      end
  end.

Fixpoint parse_variants_from (acc : CodecVariants) (vs : list Variant)
    : res CodecVariants :=
  match vs with
  | [] => Val (inl acc)
  | v :: rest =>
      r <- step acc v ;;
      match r with
      | inr e => Val (inr e)
      | inl acc' => parse_variants_from acc' rest
      end
  end.

(** [pub(crate) fn parse_variants(variants) -> Result<CodecVariants, syn::Error>]. *)
Definition parse_variants (vs : list Variant) : res CodecVariants :=
  parse_variants_from (mkCodecVariants [] [] [] [] [] 0) vs.

End Derive.

(** * Properties *)

(** ** The [Dna] codec *)
Section DnaProofs.
Import DnaCodec.

Lemma land_3_mod_4 (b : Z) : Z.land b 3 = b mod 4.
Proof.
  change 3 with (Z.ones 2). rewrite Z.land_ones by lia. reflexivity.
Qed.

Lemma transmute_code (s : Dna) : transmute_u8_dna (to_bits s) = Val s.
Proof. destruct s; reflexivity. Qed.

Lemma transmute_small (b : Z) :
  0 <= b < 4 -> exists s, to_bits s = b /\ transmute_u8_dna b = Val s.
Proof.
  intros Hb.
  assert (b = 0 \/ b = 1 \/ b = 2 \/ b = 3) as [ -> | [ -> | [ -> | -> ] ] ] by lia.
  - exists A; auto.
  - exists C; auto.
  - exists G; auto.
  - exists T; auto.
Qed.

(** C3: for every symbol, [try_from_bits] and [unsafe_from_bits] invert
    [to_bits] and [try_from_ascii] inverts [to_char]; on a byte [b],
    [try_from_bits] returns a symbol (the one coded [b]) exactly when
    [b < 4] and nothing otherwise. *)
Theorem dna_codec_inverses :
  forall (b : Z), 0 <= b <= 255 ->
  (forall s : Dna,
     try_from_bits (to_bits s) = Val (Some s)
     /\ (forall debug_assertions, unsafe_from_bits debug_assertions (to_bits s) = Val s)
     /\ try_from_ascii (to_char s) = Some s)
  /\ (b < 4 -> exists s, to_bits s = b /\ try_from_bits b = Val (Some s))
  /\ (4 <= b -> try_from_bits b = Val None).
Proof.
  intros b Hb. split; [|split].
  - intros s. destruct s; repeat split; intros []; reflexivity.
  - intros Hlt. destruct (transmute_small b ltac:(lia)) as [s [Hs Ht]].
    exists s. split; [exact Hs|].
    unfold try_from_bits. replace (b <? 4) with true by (symmetry; apply Z.ltb_lt; lia).
    rewrite Ht. reflexivity.
  - intros Hge. unfold try_from_bits.
    replace (b <? 4) with false by (symmetry; apply Z.ltb_ge; lia). reflexivity.
Qed.

Lemma dna_codec_inverses_witness :
  (0 <= 2 <= 255 /\ 2 < 4 /\ 4 <= 200)
  /\ (exists s, to_bits s = 2 /\ try_from_bits 2 = Val (Some s))
  /\ try_from_bits 200 = Val None.
Proof.
  split; [lia|]. split.
  - apply (proj1 (proj2 (dna_codec_inverses 2 ltac:(lia)))). lia.
  - apply (proj2 (proj2 (dna_codec_inverses 200 ltac:(lia)))). lia.
Defined.

(** C4: the complement [unsafe_from_bits(code ^ 0b11)] never fails and is
    a pairing [A <-> T], [C <-> G]: an involution without fixed point,
    hence a bijection. *)
Theorem dna_comp_involution :
  forall debug_assertions : bool,
  exists f : Dna -> Dna,
    (forall s, comp debug_assertions s = Val (f s))
    /\ (forall s, f (f s) = s)
    /\ (forall s, f s <> s)
    /\ f A = T /\ f T = A /\ f C = G /\ f G = C
    /\ (forall s, (c <- comp debug_assertions s ;; comp debug_assertions c) = Val s).
Proof.
  intros dbg.
  exists (fun s => match s with A => T | T => A | C => G | G => C end).
  repeat split; intros; repeat match goal with s : Dna |- _ => destruct s end;
    try discriminate; destruct dbg; reflexivity.
Qed.

(** C8 (defect): [((b << 1) + b) >> 3] maps ['A', 'C', 'G', 'T'] to
    [24, 25, 26, 31], not to [0..3] as the comment of [unsafe_from_ascii]
    says; the low two bits are right, so a release build returns the
    symbol, but the [debug_assert!(b < 4)] of [unsafe_from_bits] fails on
    every letter of the alphabet in a debug build. *)
Theorem unsafe_from_ascii_debug_assert_fails :
  map (fun s => unsafe_from_ascii_raw true (to_char s)) items
    = [Val 24; Val 25; Val 26; Val 31]
  /\ unsafe_from_ascii true ascii_A = Panic
  /\ (forall s, unsafe_from_ascii true (to_char s) = Panic)
  /\ (forall s, unsafe_from_ascii false (to_char s) = Val s).
Proof.
  repeat split; intros; repeat match goal with s : Dna |- _ => destruct s end;
    reflexivity.
Qed.

(** C10: [unsafe_from_bits] only looks at [b & 0b11]: without debug
    assertions it returns, for every byte, the symbol coded [b mod 4]
    (never an invalid discriminant); with them the only difference is the
    panic of [debug_assert!(b < 4)] for [b >= 4]. *)
Theorem unsafe_from_bits_low_bits :
  forall b : Z,
  exists s : Dna,
    to_bits s = b mod 4
    /\ unsafe_from_bits false b = Val s
    /\ unsafe_from_bits true b = (if b <? 4 then Val s else Panic).
Proof.
  intros b.
  destruct (transmute_small (b mod 4) ltac:(pose proof (Z.mod_pos_bound b 4); lia))
    as [s [Hs Ht]].
  exists s. unfold unsafe_from_bits. rewrite land_3_mod_4, Ht. simpl.
  split; [exact Hs|]. split; [reflexivity|].
  destruct (b <? 4); reflexivity.
Qed.

End DnaProofs.

(** ** Width resolution *)
Section WidthProofs.
Import Derive.

Lemma u8_add_no_overflow (dbg : bool) (a b : Z) :
  a + b <= u8_max -> u8_add dbg a b = Val (a + b).
Proof. intros H. unfold u8_add. replace (a + b <=? u8_max) with true by lia. reflexivity. Qed.

Lemma min_width_below_255 (m : Z) :
  0 <= m <= 254 -> f32_ceil_log2_as_u8 (m + 1) = Z.log2_up (m + 1).
Proof.
  intros Hm. unfold f32_ceil_log2_as_u8.
  replace (m + 1 =? 0) with false by lia. reflexivity.
Qed.

Lemma find_bits_skip (pre post : list Attribute) (min_width : Z) :
  forallb (fun a => negb (String.eqb (attr_path a) "bits")) pre = true ->
  find_bits (pre ++ post) min_width = find_bits post min_width.
Proof.
  induction pre as [|a pre IH]; intros Hpre; simpl in *; [reflexivity|].
  apply andb_prop in Hpre as [Ha Hpre].
  destruct (String.eqb (attr_path a) "bits"); [discriminate|]. auto.
Qed.

(** Without a [bits] attribute and for every maximal code up to 254 the
    resolved width is the ceiling of [log2 (max_code + 1)]. *)
Lemma parse_width_default_below_255 (dbg : bool) (attrs : list Attribute) (m : Z) :
  0 <= m <= 254 ->
  forallb (fun a => negb (String.eqb (attr_path a) "bits")) attrs = true ->
  parse_width dbg attrs m = Val (inl (Z.log2_up (m + 1))).
Proof.
  intros Hm Hattrs. unfold parse_width.
  rewrite u8_add_no_overflow by (unfold u8_max; lia). simpl.
  rewrite <- (app_nil_r attrs), find_bits_skip by exact Hattrs.
  simpl. rewrite min_width_below_255 by lia. reflexivity.
Qed.

(** C1 (defect): for the largest code a [u8] discriminant allows, 255,
    [max_variant + 1] overflows in [u8]: with overflow checks
    [parse_width] panics, without them it wraps to 0 and resolves the
    width to 0, while the ceiling of [log2 256] is 8. *)
Theorem parse_width_overflow_at_255 :
  parse_width true [] 255 = Panic
  /\ parse_width false [] 255 = Val (inl 0)
  /\ Z.log2_up (255 + 1) = 8.
Proof. repeat split; reflexivity. Qed.

(** C5 as stated fails: a width literal above 255 is unwrapped as a [u8]
    and panics, although it is at least the minimum width. *)
Lemma parse_width_large_literal_panics :
  parse_width true [mkAttr "bits" (Lits [LitInt 300])] 3 = Panic
  /\ parse_width false [mkAttr "bits" (Lits [LitInt 300])] 3 = Panic
  /\ f32_ceil_log2_as_u8 (3 + 1) = 2.
Proof. repeat split; reflexivity. Qed.

(** C5 (amended): for a maximal code up to 254 and a requested width
    [w >= 0] (the first [bits] attribute), [parse_width] panics when
    [w > 255] (the [u8] unwrap), and otherwise returns
    [WidthTooSmall min_width] exactly when [w < min_width], and [w]
    else; e.g. width 1 for the codes [0..3] fails reporting 2. *)
Theorem parse_width_requested :
  forall (dbg : bool) (pre post : list Attribute) (m w : Z),
  0 <= m <= 254 -> 0 <= w ->
  forallb (fun a => negb (String.eqb (attr_path a) "bits")) pre = true ->
  parse_width dbg (pre ++ mkAttr "bits" (Lits [LitInt w]) :: post) m
    = (if 255 <? w then Panic
       else if w <? Z.log2_up (m + 1)
       then Val (inr (WidthTooSmall (Z.log2_up (m + 1))))
       else Val (inl w))
  /\ parse_width dbg [mkAttr "bits" (Lits [LitInt 1])] 3 = Val (inr (WidthTooSmall 2)).
Proof.
  intros dbg pre post m w Hm Hw Hpre. split.
  - unfold parse_width.
    rewrite u8_add_no_overflow by (unfold u8_max; lia). simpl.
    rewrite find_bits_skip by exact Hpre. simpl.
    rewrite min_width_below_255 by lia.
    unfold base10_parse_u8_unwrap, u8_max.
    replace (0 <=? w) with true by lia. simpl.
    destruct (255 <? w) eqn:Hbig.
    + apply Z.ltb_lt in Hbig. replace (w <=? 255) with false by lia. reflexivity.
    + apply Z.ltb_ge in Hbig. replace (w <=? 255) with true by lia. simpl.
      destruct (w <? Z.log2_up (m + 1)); reflexivity.
  - destruct dbg; reflexivity.
Qed.

Lemma parse_width_requested_witness :
  parse_width true ([mkAttr "display" (Lits [LitChar 65])] ++
                    mkAttr "bits" (Lits [LitInt 4]) :: []) 3 = Val (inl 4)
  /\ parse_width true [mkAttr "bits" (Lits [LitInt 1])] 3 = Val (inr (WidthTooSmall 2)).
Proof.
  apply (parse_width_requested true [mkAttr "display" (Lits [LitChar 65])] [] 3 4);
    [lia | lia | reflexivity].
Defined.

End WidthProofs.

(** ** Variant analysis *)
Section VariantProofs.
Import Derive.

(** The arms the spec expects from one variant. The primary byte: the
    first byte of the name, replaced by every [display] character in
    turn (cast [as u8]). *)
Definition expected_char_repr (v : Variant) : Z :=
  fold_left (fun c a =>
      if String.eqb (attr_path a) "display" then
        match parse_lit_char a with Some ch => ch mod 256 | None => c end
      else c)
    (v_attrs v)
    (match v_ident v with EmptyString => 0 | String c _ => Z.of_nat (Ascii.nat_of_ascii c) end).

(** The arms contributed by the [alt] attributes, in order. *)
Definition expected_alt_arms (ident : string) (attrs : list Attribute) : list (Pattern * string) :=
  flat_map (fun a =>
      if String.eqb (attr_path a) "display" then []
      else if String.eqb (attr_path a) "alt" then
        match parse_expr_lits a with
        | Some ds => map (fun d => (PatLit d, ident)) ds
        | None => []
        end
      else [])
    attrs.

(** The code of a variant with an integer or byte literal discriminant. *)
Definition expected_code (v : Variant) : Z :=
  match v_discriminant v with
  | Some (ExprLit (LitByte b)) => b
  | Some (ExprLit (LitInt n)) => n
  | _ => 0
  end.

Definition expected_code_arms (v : Variant) : list (Pattern * string) :=
  (PatU8 (expected_code v), v_ident v) :: expected_alt_arms (v_ident v) (v_attrs v).

Lemma scan_attrs_ok (ident : string) (attrs : list Attribute) :
  forall c a u c' a' u',
  scan_attrs ident attrs c a u = Val (inl (c', a', u')) ->
  c' = fold_left (fun c a =>
          if String.eqb (attr_path a) "display" then
            match parse_lit_char a with Some ch => ch mod 256 | None => c end
          else c) attrs c
  /\ a' = a ++ expected_alt_arms ident attrs
  /\ u' = u ++ expected_alt_arms ident attrs.
Proof.
  induction attrs as [|att rest IH]; intros c a u c' a' u' H; simpl in *.
  - inversion H; subst. rewrite !app_nil_r. auto.
  - destruct (String.eqb (attr_path att) "display").
    + destruct (parse_lit_char att) as [ch|]; [|discriminate].
      apply IH in H. exact H.
    + destruct (String.eqb (attr_path att) "alt").
      * destruct (parse_expr_lits att) as [ds|]; [|discriminate].
        apply IH in H as (Hc & Ha & Hu). rewrite <- !app_assoc in Ha, Hu. auto.
      * apply IH in H. simpl in H. exact H.
Qed.

Lemma discriminant_value_ok (v : Variant) (x : Z) :
  discriminant_value v = Val (inl x) -> x = expected_code v.
Proof.
  unfold discriminant_value, expected_code.
  destruct (v_discriminant v) as [[l|]|]; try discriminate.
  destruct l; try discriminate; simpl.
  - unfold base10_parse_u8_unwrap. destruct (_ && _); simpl; congruence.
  - congruence.
Qed.

Lemma step_ok (acc acc' : CodecVariants) (v : Variant) :
  step acc v = Val (inl acc') ->
  to_chars acc' = to_chars acc ++ [(v_ident v, expected_char_repr v)]
  /\ from_chars acc' = from_chars acc ++ [(expected_char_repr v, v_ident v)]
  /\ alts acc' = alts acc ++ expected_code_arms v
  /\ unsafe_alts acc' = unsafe_alts acc ++ expected_code_arms v.
Proof.
  unfold step. intros H.
  destruct (discriminant_value v) as [[x|e]| |] eqn:Hd; simpl in H; try discriminate.
  apply discriminant_value_ok in Hd.
  destruct (v_ident v) as [|c0 r] eqn:Hid; simpl in H; [discriminate|].
  destruct (scan_attrs _ _ _ _ _) as [[[[cr a2] u2]|e]| |] eqn:Hs;
    simpl in H; try discriminate.
  inversion H; subst; clear H. simpl.
  apply scan_attrs_ok in Hs as (Hc & Ha & Hu).
  unfold expected_char_repr, expected_code_arms. rewrite Hid, Hc, Ha, Hu.
  rewrite <- !app_assoc. auto.
Qed.

Lemma parse_variants_from_ok (vs : list Variant) :
  forall acc cv, parse_variants_from acc vs = Val (inl cv) ->
  to_chars cv = to_chars acc ++ map (fun v => (v_ident v, expected_char_repr v)) vs
  /\ from_chars cv = from_chars acc ++ map (fun v => (expected_char_repr v, v_ident v)) vs
  /\ alts cv = alts acc ++ flat_map expected_code_arms vs
  /\ unsafe_alts cv = unsafe_alts acc ++ flat_map expected_code_arms vs.
Proof.
  induction vs as [|v rest IH]; intros acc cv H; simpl in *.
  - inversion H; subst. rewrite !app_nil_r. auto.
  - destruct (step acc v) as [[acc'|e]| |] eqn:Hs; simpl in H; try discriminate.
    apply step_ok in Hs as (H1 & H2 & H3 & H4).
    apply IH in H as (G1 & G2 & G3 & G4).
    rewrite G1, G2, G3, G4, H1, H2, H3, H4. rewrite <- !app_assoc. auto.
Qed.

(** C7 as stated fails: a [display] character outside ASCII is cast
    [as u8], so [display('\u{100}')] prints the symbol as byte 0, not as
    the character U+0100. *)
Lemma display_char_truncated :
  match parse_variants [mkVariant "A" (Some (ExprLit (LitInt 0)))
                          [mkAttr "display" (Lits [LitChar 256])]] with
  | Val (inl cv) => to_chars cv
  | _ => []
  end = [("A"%string, 0)].
Proof. reflexivity. Qed.

(** C7 (amended): for a successful [parse_variants], the [to_chars] arm of
    each symbol maps it to the first byte of its name, replaced by the
    character of each [display] attribute in turn, cast [as u8];
    [from_chars] keeps exactly that name-derived input arm per symbol;
    every literal of an [alt] attribute adds an input arm to the same
    symbol in [alts] and [unsafe_alts] (the alternative bytes symbols are
    read from), alongside and without replacing the [from_chars] arm;
    [to_chars] holds no arm from an [alt] attribute. *)
Theorem parse_variants_char_arms :
  forall (vs : list Variant) (cv : CodecVariants),
  parse_variants vs = Val (inl cv) ->
  to_chars cv = map (fun v => (v_ident v, expected_char_repr v)) vs
  /\ from_chars cv = map (fun v => (expected_char_repr v, v_ident v)) vs
  /\ alts cv = flat_map expected_code_arms vs
  /\ unsafe_alts cv = flat_map expected_code_arms vs.
Proof.
  intros vs cv H. apply parse_variants_from_ok in H. exact H.
Qed.

Definition sample_variants : list Variant :=
  [mkVariant "A" (Some (ExprLit (LitInt 0))) [];
   mkVariant "Stop" (Some (ExprLit (LitByte 1)))
     [mkAttr "display" (Lits [LitChar 42]); mkAttr "alt" (Lits [LitInt 2; LitInt 3])]].

Definition sample_codec_variants : CodecVariants :=
  match parse_variants sample_variants with
  | Val (inl cv) => cv
  | _ => mkCodecVariants [] [] [] [] [] 0
  end.

Lemma parse_variants_char_arms_witness :
  parse_variants sample_variants = Val (inl sample_codec_variants)
  /\ to_chars sample_codec_variants
       = map (fun v => (v_ident v, expected_char_repr v)) sample_variants.
Proof.
  split; [reflexivity|].
  exact (proj1 (parse_variants_char_arms sample_variants sample_codec_variants eq_refl)).
Defined.

Lemma parse_variants_from_app (acc : CodecVariants) (pre post : list Variant) :
  parse_variants_from acc (pre ++ post)
  = (r <- parse_variants_from acc pre ;;
     match r with inl acc' => parse_variants_from acc' post | inr e => Val (inr e) end).
Proof.
  revert acc. induction pre as [|v pre IH]; intros acc; simpl; [reflexivity|].
  destruct (step acc v) as [[acc'|e]| |]; simpl; auto.
Qed.

(** A symbol whose code is a literal that is neither an integer nor a
    byte makes [parse_variants] return [InvalidDiscriminantType], once
    the symbols before it are accepted. *)
Lemma parse_variants_non_integer_code (pre post : list Variant) (v : Variant)
    (cv : CodecVariants) (l : Lit) :
  parse_variants pre = Val (inl cv) ->
  v_discriminant v = Some (ExprLit l) ->
  (forall n, l <> LitInt n) -> (forall b, l <> LitByte b) ->
  parse_variants (pre ++ v :: post) = Val (inr InvalidDiscriminantType).
Proof.
  intros Hpre Hd Hi Hb. unfold parse_variants in *.
  rewrite parse_variants_from_app, Hpre. simpl.
  unfold step, discriminant_value. rewrite Hd.
  destruct l; [exfalso; eapply Hi; reflexivity | exfalso; eapply Hb; reflexivity
              | reflexivity | reflexivity | reflexivity].
Qed.

(** C6 (defect): an integer code outside [0..=255] is not reported as an
    error: [base10_parse::<u8>().unwrap()] panics; a non-integer,
    non-byte literal code is returned as [InvalidDiscriminantType]. *)
Theorem parse_variants_out_of_range_code_panics :
  parse_variants [mkVariant "A" (Some (ExprLit (LitInt 256))) []] = Panic
  /\ parse_variants [mkVariant "A" (Some (ExprLit (LitStr "x"))) []]
       = Val (inr InvalidDiscriminantType).
Proof. split; reflexivity. Qed.

End VariantProofs.

(** ** The packed sequence *)
Section SeqProofs.
Import DnaCodec PackedSeq.

Lemma length_list_set {X} (l : list X) (i : nat) (x : X) :
  List.length (list_set l i x) = List.length l.
Proof.
  revert i. induction l as [|y l IH]; intros [|i]; simpl; auto.
Qed.

Lemma nth_list_set {X} (l : list X) (i j : nat) (x d : X) :
  (i < List.length l)%nat ->
  nth j (list_set l i x) d = if Nat.eqb j i then x else nth j l d.
Proof.
  revert i j. induction l as [|y l IH]; intros i j Hi; simpl in *; [lia|].
  destruct i as [|i], j as [|j]; simpl; auto.
  apply IH. lia.
Qed.

Lemma seq_wfb_spec (s : Seq) :
  seq_wfb s = true ->
  0 <= bv_len (bv s) /\ bv_len (bv s) mod BITS = 0 /\ bv_len (bv s) < usize_modulus
  /\ Z.of_nat (List.length (bv_words (bv s))) = ceil_div (bv_len (bv s)) word_bits
  /\ Forall (fun w => 0 <= w < usize_modulus) (bv_words (bv s)).
Proof.
  unfold seq_wfb. intros H.
  repeat match goal with H : (_ && _) = true |- _ => apply andb_prop in H as [? ?] end.
  repeat split; try lia.
  match goal with H : forallb _ _ = true |- _ => rewrite forallb_forall in H end.
  apply Forall_forall. intros w Hw.
  match goal with H : forall x, In x _ -> _ |- _ =>
    specialize (H w Hw); apply andb_prop in H as [? ?] end.
  lia.
Qed.

Lemma word_index_in_range (k L : Z) :
  0 <= k < L -> k / word_bits < ceil_div L word_bits.
Proof.
  intros Hk. unfold ceil_div, word_bits.
  replace (L + 64 - 1) with ((L - 1) + 1 * 64) by lia.
  rewrite Z.div_add by lia.
  pose proof (Z.div_le_mono k (L - 1) 64 ltac:(lia) ltac:(lia)). lia.
Qed.

Lemma bitslice_set_spec (v : BitVec) (k : Z) (value : bool) :
  0 <= k < bv_len v ->
  Z.of_nat (List.length (bv_words v)) = ceil_div (bv_len v) word_bits ->
  exists v', bitslice_set v k value = Val v'
    /\ bv_len v' = bv_len v
    /\ List.length (bv_words v') = List.length (bv_words v)
    /\ forall j, 0 <= j -> bit v' j = if j =? k then value else bit v j.
Proof.
  intros Hk Hlen. unfold bitslice_set.
  replace ((0 <=? k) && (k <? bv_len v)) with true by lia.
  eexists. split; [reflexivity|]. simpl.
  split; [reflexivity|]. split; [apply length_list_set|].
  intros j Hj. unfold bit, word_at. simpl.
  pose proof (word_index_in_range k (bv_len v) Hk) as Hidx.
  pose proof (Z.div_pos k word_bits ltac:(lia) ltac:(unfold word_bits; lia)).
  pose proof (Z.div_pos j word_bits ltac:(lia) ltac:(unfold word_bits; lia)).
  pose proof (Z.mod_pos_bound j word_bits ltac:(unfold word_bits; lia)).
  pose proof (Z.mod_pos_bound k word_bits ltac:(unfold word_bits; lia)).
  rewrite nth_list_set by lia.
  destruct (Nat.eqb (Z.to_nat (j / word_bits)) (Z.to_nat (k / word_bits))) eqn:Hq.
  - apply Nat.eqb_eq in Hq. apply Z2Nat.inj in Hq; [|lia|lia].
    destruct (j =? k) eqn:Hjk.
    + apply Z.eqb_eq in Hjk. subst j.
      destruct value; [apply Z.setbit_eq; lia | apply Z.clearbit_eq].
    + apply Z.eqb_neq in Hjk.
      assert (Hm : k mod word_bits <> j mod word_bits).
      { intros Hm. apply Hjk.
        rewrite (Z.div_mod j word_bits), (Z.div_mod k word_bits) by (unfold word_bits; lia).
        rewrite Hq, Hm. reflexivity. }
      rewrite Hq. destruct value;
        [apply Z.setbit_neq; lia | apply Z.clearbit_neq; exact Hm].
  - apply Nat.eqb_neq in Hq.
    replace (j =? k) with false; [reflexivity|].
    symmetry. apply Z.eqb_neq. intros ->. apply Hq. reflexivity.
Qed.

(** C9: [set(pos, base)] on a well-formed sequence and [pos < len]
    writes [to_bits base] into bits [2 pos] (high bit) and [2 pos + 1]
    (low bit) and leaves every other bit, hence every other slot,
    unchanged; setting index 1 of [AACG] to [T] gives [ATCG]. *)
Theorem seq_set_slot :
  forall (s : Seq) (pos : Z) (base : Dna),
  seq_wfb s = true -> 0 <= pos < len s ->
  (exists s', set s pos base = Val s'
     /\ bv_len (bv s') = bv_len (bv s)
     /\ bit (bv s') (2 * pos) = Z.testbit (to_bits base) 1
     /\ bit (bv s') (2 * pos + 1) = Z.testbit (to_bits base) 0
     /\ (forall k, 0 <= k -> k <> 2 * pos -> k <> 2 * pos + 1 -> bit (bv s') k = bit (bv s) k)
     /\ slot s' pos = to_bits base
     /\ (forall j, 0 <= j -> j <> pos -> slot s' j = slot s j))
  /\ match from_text "AACG", from_text "ATCG" with
     | Some s1, Some s2 => set s1 1 T = Val s2
     | _, _ => False
     end.
Proof.
  intros s pos base Hwf Hpos. split; [|vm_compute; reflexivity].
  apply seq_wfb_spec in Hwf as (HL0 & Hev & Hmax & Hlen & _).
  unfold len, BITS in Hpos. unfold BITS in Hev.
  pose proof (Z.div_mod (bv_len (bv s)) 2 ltac:(lia)).
  unfold set.
  assert (Hoff : Z.shiftl pos 1 mod usize_modulus = 2 * pos).
  { rewrite Z.shiftl_mul_pow2 by lia. unfold usize_modulus in *.
    rewrite Z.mod_small; lia. }
  rewrite Hoff.
  destruct (bitslice_set_spec (bv s) (2 * pos) (negb (Z.land (to_bits base) 2 =? 0))
              ltac:(lia) Hlen) as (v1 & Hs1 & Hl1 & Hw1 & Hb1).
  rewrite Hs1. cbn [bind].
  destruct (bitslice_set_spec v1 (2 * pos + 1) (negb (Z.land (to_bits base) 1 =? 0))
              ltac:(lia) ltac:(rewrite Hw1, Hl1; exact Hlen)) as (v2 & Hs2 & Hl2 & Hw2 & Hb2).
  rewrite Hs2. cbn [bind].
  assert (Hhi : negb (Z.land (to_bits base) 2 =? 0) = Z.testbit (to_bits base) 1)
    by (destruct base; reflexivity).
  assert (Hlo : negb (Z.land (to_bits base) 1 =? 0) = Z.testbit (to_bits base) 0)
    by (destruct base; reflexivity).
  assert (Hbits : forall k, 0 <= k -> bit v2 k =
            if k =? 2 * pos + 1 then Z.testbit (to_bits base) 0
            else if k =? 2 * pos then Z.testbit (to_bits base) 1
            else bit (bv s) k).
  { intros k Hk. rewrite Hb2, Hb1 by exact Hk. rewrite Hhi, Hlo. reflexivity. }
  exists (mkSeq v2). cbn [bv]. split; [reflexivity|]. split; [congruence|].
  split; [rewrite Hbits by lia; replace (2 * pos =? 2 * pos + 1) with false by lia;
          rewrite Z.eqb_refl; reflexivity|].
  split; [rewrite Hbits by lia; rewrite Z.eqb_refl; reflexivity|].
  split.
  { intros k Hk H1 H2. rewrite Hbits by exact Hk.
    replace (k =? 2 * pos + 1) with false by lia.
    replace (k =? 2 * pos) with false by lia. reflexivity. }
  split.
  { unfold slot. cbn [bv]. rewrite !Hbits by lia.
    replace (2 * pos =? 2 * pos + 1) with false by lia. rewrite !Z.eqb_refl.
    destruct base; reflexivity. }
  intros j Hj Hne. unfold slot. cbn [bv]. rewrite !Hbits by lia.
  replace (2 * j =? 2 * pos + 1) with false by lia.
  replace (2 * j =? 2 * pos) with false by lia.
  replace (2 * j + 1 =? 2 * pos + 1) with false by lia.
  replace (2 * j + 1 =? 2 * pos) with false by lia.
  reflexivity.
Qed.


Definition sample_seq : Seq := from_symbols [A; C; T; G; A; C; T; T; T; C; A; C; C; G; G; G].

Lemma seq_set_slot_witness :
  seq_wfb sample_seq = true /\ 0 <= 3 < len sample_seq /\
  exists s', set sample_seq 3 C = Val s' /\ slot s' 3 = to_bits C.
Proof.
  assert (Hlen : len sample_seq = 16) by (vm_compute; reflexivity).
  split; [vm_compute; reflexivity|]. split; [lia|].
  destruct (proj1 (seq_set_slot sample_seq 3 C (eq_refl true) ltac:(lia)))
    as (s' & Hs & _ & _ & _ & _ & Hslot & _).
  exists s'. split; [exact Hs | exact Hslot].
Defined.

End SeqProofs.

(** ** Serialization *)
Section BincodeProofs.
Import DnaCodec PackedSeq Bincode.

Lemma le_read_le_bytes (k : nat) :
  forall n rest, 0 <= n < 256 ^ Z.of_nat k ->
  le_read k (le_bytes k n ++ rest) = inl (n, rest).
Proof.
  induction k as [|k IH]; intros n rest Hn; cbn [le_bytes le_read app].
  - simpl in Hn. f_equal. f_equal. lia.
  - rewrite Nat2Z.inj_succ, Z.pow_succ_r in Hn by lia.
    rewrite (IH (n / 256) rest).
    + f_equal. f_equal. pose proof (Z.div_mod n 256 ltac:(lia)). lia.
    + split; [apply Z.div_pos; lia|].
      apply Z.div_lt_upper_bound; lia.
Qed.

Lemma varint_roundtrip (n : Z) (rest : list Z) :
  0 <= n < 2 ^ 64 ->
  varint_decode_u64 (varint_encode_u64 n ++ rest) = inl (n, rest).
Proof.
  intros Hn. unfold varint_encode_u64.
  destruct (n <=? SINGLE_BYTE_MAX) eqn:H1.
  { cbn [app]. unfold varint_decode_u64. rewrite H1. reflexivity. }
  apply Z.leb_gt in H1. unfold SINGLE_BYTE_MAX in H1.
  destruct (n <=? 2 ^ 16 - 1) eqn:H2; [apply Z.leb_le in H2|apply Z.leb_gt in H2].
  { cbn [app]. change (le_read 2 (le_bytes 2 n ++ rest) = inl (n, rest)).
    apply le_read_le_bytes. simpl. lia. }
  destruct (n <=? 2 ^ 32 - 1) eqn:H3; [apply Z.leb_le in H3|apply Z.leb_gt in H3].
  { cbn [app]. change (le_read 4 (le_bytes 4 n ++ rest) = inl (n, rest)).
    apply le_read_le_bytes. simpl. lia. }
  cbn [app]. change (le_read 8 (le_bytes 8 n ++ rest) = inl (n, rest)).
  apply le_read_le_bytes. simpl. lia.
Qed.

Lemma decode_usizes_roundtrip (ws rest : list Z) :
  Forall (fun w => 0 <= w < usize_modulus) ws ->
  decode_usizes (List.length ws) (flat_map varint_encode_u64 ws ++ rest) = inl (ws, rest).
Proof.
  induction 1 as [|w ws Hw Hws IH]; simpl; [reflexivity|].
  rewrite <- app_assoc, varint_roundtrip by (unfold usize_modulus in Hw; lia).
  rewrite IH. reflexivity.
Qed.

Lemma decode_usize_vec_roundtrip (ws rest : list Z) :
  Z.of_nat (List.length ws) < usize_modulus ->
  Forall (fun w => 0 <= w < usize_modulus) ws ->
  decode_usize_vec (encode_usize_vec ws ++ rest) = inl (ws, rest).
Proof.
  intros Hlen Hws. unfold decode_usize_vec, encode_usize_vec.
  rewrite <- app_assoc, varint_roundtrip by (unfold usize_modulus in Hlen; lia).
  rewrite Nat2Z.id. apply decode_usizes_roundtrip, Hws.
Qed.

(** C2: decoding the bincode encoding [(len, raw words)] of a
    well-formed [Seq<Dna>] gives back the same sequence (same length,
    same symbols) and leaves the bytes after it untouched. *)
Theorem bincode_roundtrip :
  forall (s : Seq) (rest : list Z),
  seq_wfb s = true ->
  exists s', decode (encode s ++ rest) = inl (s', rest)
    /\ s' = s
    /\ len s' = len s
    /\ (forall dbg i, get dbg s' i = get dbg s i)
    /\ seq_eqb s' s = true.
Proof.
  intros s rest Hwf.
  pose proof (seq_wfb_spec s Hwf) as (HL0 & Hev & Hmax & Hlen & Hws).
  destruct s as [[L ws]]. simpl in *. unfold BITS in Hev.
  assert (Hdecode : decode (encode (mkSeq (mkBitVec L ws)) ++ rest)
                    = inl (mkSeq (mkBitVec L ws), rest)).
  { unfold decode, encode, into_raw, len, BITS. simpl.
    pose proof (Z.div_mod L 2 ltac:(lia)).
    rewrite <- app_assoc, varint_roundtrip by (unfold usize_modulus in Hmax;
      split; [apply Z.div_pos|apply (Z.le_lt_trans _ L)]; try lia;
      apply Z.div_le_upper_bound; lia).
    rewrite decode_usize_vec_roundtrip; [| | exact Hws].
    - unfold from_raw, BITS. replace (L / 2 * 2) with L by lia.
      rewrite <- Hlen, Z.ltb_irrefl, Nat2Z.id, firstn_all. reflexivity.
    - rewrite Hlen. unfold ceil_div, word_bits, usize_modulus in *.
      apply Z.div_lt_upper_bound; lia. }
  exists (mkSeq (mkBitVec L ws)). split; [exact Hdecode|].
  split; [reflexivity|]. split; [reflexivity|]. split; [reflexivity|].
  unfold seq_eqb. simpl. rewrite Z.eqb_refl. simpl.
  apply forallb_forall. intros k _. apply eqb_reflx.
Qed.

Lemma bincode_roundtrip_witness :
  seq_wfb sample_seq = true
  /\ exists s', decode (encode sample_seq) = inl (s', []) /\ s' = sample_seq.
Proof.
  split; [vm_compute; reflexivity|].
  destruct (bincode_roundtrip sample_seq [] (eq_refl true)) as (s' & Hd & Heq & _).
  rewrite app_nil_r in Hd. exists s'. split; [exact Hd | exact Heq].
Defined.

End BincodeProofs.

(** * Further properties of the code *)

(** ** The [Dna] codec *)
Section DnaExtras.
Import DnaCodec.

Lemma transmute_val (b : Z) (d : Dna) :
  transmute_u8_dna b = Val d -> b = to_bits d.
Proof.
  unfold transmute_u8_dna.
  destruct (b =? 0) eqn:H0; [apply Z.eqb_eq in H0; intros H; inversion H; subst; reflexivity|].
  destruct (b =? 1) eqn:H1; [apply Z.eqb_eq in H1; intros H; inversion H; subst; reflexivity|].
  destruct (b =? 2) eqn:H2; [apply Z.eqb_eq in H2; intros H; inversion H; subst; reflexivity|].
  destruct (b =? 3) eqn:H3; [apply Z.eqb_eq in H3; intros H; inversion H; subst; reflexivity|].
  discriminate.
Qed.

(** [try_from_ascii] accepts exactly the four upper-case letters that
    [to_char] prints, each as its own symbol. *)
Theorem try_from_ascii_iff_to_char :
  forall (c : Z) (d : Dna), try_from_ascii c = Some d <-> c = to_char d.
Proof.
  intros c d. unfold try_from_ascii. split.
  - destruct (c =? ascii_A) eqn:HA; [apply Z.eqb_eq in HA; intros H; inversion H; subst; reflexivity|].
    destruct (c =? ascii_C) eqn:HC; [apply Z.eqb_eq in HC; intros H; inversion H; subst; reflexivity|].
    destruct (c =? ascii_G) eqn:HG; [apply Z.eqb_eq in HG; intros H; inversion H; subst; reflexivity|].
    destruct (c =? ascii_T) eqn:HT; [apply Z.eqb_eq in HT; intros H; inversion H; subst; reflexivity|].
    discriminate.
  - intros ->. destruct d; reflexivity.
Qed.

(** [items] lists every symbol exactly once, in the order of their codes. *)
Theorem items_enumerates_codes :
  (forall d : Dna, In d items) /\ NoDup items /\ map to_bits items = [0; 1; 2; 3].
Proof.
  split; [intros []; simpl; tauto|]. split; [|reflexivity].
  repeat constructor; simpl; intuition discriminate.
Qed.

(** Whenever the checked [try_from_bits] accepts a byte, the unchecked
    [unsafe_from_bits] returns the same symbol, with or without debug
    assertions. *)
Theorem try_from_bits_agrees_unsafe :
  forall (dbg : bool) (b : Z) (d : Dna),
  try_from_bits b = Val (Some d) -> unsafe_from_bits dbg b = Val d.
Proof.
  intros dbg b d. unfold try_from_bits.
  destruct (b <? 4) eqn:Hb; [|discriminate].
  destruct (transmute_u8_dna b) as [d'| |] eqn:Ht; simpl; try discriminate.
  intros H. inversion H; subst d'.
  apply transmute_val in Ht. subst b.
  unfold unsafe_from_bits. rewrite Hb. simpl.
  destruct d; destruct dbg; reflexivity.
Qed.

Lemma try_from_bits_agrees_unsafe_witness :
  try_from_bits 2 = Val (Some G) /\ unsafe_from_bits true 2 = Val G.
Proof.
  split; [reflexivity|]. apply (try_from_bits_agrees_unsafe true 2 G). reflexivity.
Defined.

(** Without debug assertions and overflow checks [unsafe_from_ascii]
    returns a valid symbol for every byte (the sum wraps, the mask keeps
    two bits), and on the four letters accepted by [try_from_ascii] it
    returns the same symbol. *)
Theorem unsafe_from_ascii_release_total :
  forall b : Z, 0 <= b <= 255 ->
  (exists d, unsafe_from_ascii false b = Val d)
  /\ (forall d, try_from_ascii b = Some d -> unsafe_from_ascii false b = Val d).
Proof.
  intros b Hb. split.
  - assert (Hall : forallb (fun n => match unsafe_from_ascii false (Z.of_nat n) with
                                     | Val _ => true | _ => false end)
                     (seq 0 256) = true) by (vm_compute; reflexivity).
    rewrite forallb_forall in Hall.
    specialize (Hall (Z.to_nat b) ltac:(apply in_seq; lia)).
    rewrite Z2Nat.id in Hall by lia.
    destruct (unsafe_from_ascii false b) as [d| |]; try discriminate. eauto.
  - intros d Hd. apply try_from_ascii_iff_to_char in Hd. subst b.
    destruct d; reflexivity.
Qed.

Lemma unsafe_from_ascii_release_total_witness :
  exists d, unsafe_from_ascii false 200 = Val d.
Proof. apply (unsafe_from_ascii_release_total 200); lia. Defined.

(** With debug assertions and overflow checks [unsafe_from_ascii]
    returns only for the bytes [0..=10] and panics on every other byte,
    among them every letter of the alphabet. *)
Theorem unsafe_from_ascii_debug_domain :
  forall b : Z, 0 <= b <= 255 ->
  (b <= 10 -> exists d, unsafe_from_ascii true b = Val d)
  /\ (10 < b -> unsafe_from_ascii true b = Panic).
Proof.
  intros b Hb.
  assert (Hall : forallb (fun n => match unsafe_from_ascii true (Z.of_nat n) with
                                   | Val _ => Z.of_nat n <=? 10
                                   | Panic => 10 <? Z.of_nat n
                                   | Undefined => false end)
                   (seq 0 256) = true) by (vm_compute; reflexivity).
  rewrite forallb_forall in Hall.
  specialize (Hall (Z.to_nat b) ltac:(apply in_seq; lia)).
  rewrite Z2Nat.id in Hall by lia.
  destruct (unsafe_from_ascii true b) as [d| |]; try discriminate; split; intros H.
  - eauto.
  - lia.
  - lia.
  - reflexivity.
Qed.

Lemma unsafe_from_ascii_debug_domain_witness :
  (exists d, unsafe_from_ascii true 9 = Val d) /\ unsafe_from_ascii true ascii_G = Panic.
Proof.
  split.
  - apply (unsafe_from_ascii_debug_domain 9); lia.
  - apply (unsafe_from_ascii_debug_domain ascii_G); unfold ascii_G; lia.
Defined.

End DnaExtras.

(** ** [Seq<Dna>::set] *)
Section SetExtras.
Import DnaCodec PackedSeq.

Lemma usize_bound_bits (x : Z) :
  0 <= x -> (x < usize_modulus <-> forall m, 64 <= m -> Z.testbit x m = false).
Proof.
  intros Hx. unfold usize_modulus. split.
  - intros Hlt m Hm. rewrite <- (Z.mod_small x (2 ^ 64)) by lia.
    apply Z.mod_pow2_bits_high. lia.
  - intros Hbits.
    assert (Heq : x mod 2 ^ 64 = x).
    { apply Z.bits_inj'. intros n Hn.
      destruct (Z.lt_ge_cases n 64).
      - apply Z.mod_pow2_bits_low. lia.
      - rewrite Z.mod_pow2_bits_high by lia. symmetry. apply Hbits. lia. }
    rewrite <- Heq. apply Z.mod_pos_bound. lia.
Qed.

Lemma setbit_in_range (w n : Z) :
  0 <= w < usize_modulus -> 0 <= n < 64 -> 0 <= Z.setbit w n < usize_modulus.
Proof.
  intros Hw Hn. assert (0 <= Z.setbit w n).
  { rewrite Z.setbit_spec'. apply Z.lor_nonneg. split; [lia|]. apply Z.pow_nonneg; lia. }
  split; [assumption|]. apply usize_bound_bits; [assumption|].
  intros m Hm. rewrite Z.setbit_neq by lia.
  apply (proj1 (usize_bound_bits w ltac:(lia)) ltac:(lia)). exact Hm.
Qed.

Lemma clearbit_in_range (w n : Z) :
  0 <= w < usize_modulus -> 0 <= n < 64 -> 0 <= Z.clearbit w n < usize_modulus.
Proof.
  intros Hw Hn. assert (0 <= Z.clearbit w n).
  { rewrite Z.clearbit_spec'. apply Z.ldiff_nonneg. lia. }
  split; [assumption|]. apply usize_bound_bits; [assumption|].
  intros m Hm. rewrite Z.clearbit_neq by lia.
  apply (proj1 (usize_bound_bits w ltac:(lia)) ltac:(lia)). exact Hm.
Qed.

Lemma Forall_list_set {X} (P : X -> Prop) (l : list X) (i : nat) (x : X) :
  Forall P l -> P x -> Forall P (list_set l i x).
Proof.
  intros Hl Hx. revert i. induction Hl as [|y l Hy Hl IH]; intros [|i]; simpl;
    constructor; auto.
Qed.

Lemma Forall_nth {X} (P : X -> Prop) (l : list X) (i : nat) (d : X) :
  Forall P l -> P d -> P (nth i l d).
Proof.
  intros Hl Hd. revert i. induction Hl as [|y l Hy Hl IH]; intros [|i]; simpl; auto.
Qed.

Lemma seq_wfb_intro (v : BitVec) :
  0 <= bv_len v -> bv_len v mod BITS = 0 -> bv_len v < usize_modulus ->
  Z.of_nat (List.length (bv_words v)) = ceil_div (bv_len v) word_bits ->
  Forall (fun w => 0 <= w < usize_modulus) (bv_words v) ->
  seq_wfb (mkSeq v) = true.
Proof.
  intros H1 H2 H3 H4 H5. unfold seq_wfb. simpl.
  repeat (apply andb_true_intro; split); try lia.
  apply forallb_forall. intros w Hw. rewrite Forall_forall in H5.
  specialize (H5 w Hw). lia.
Qed.

Lemma bitslice_set_keeps_wf (v v' : BitVec) (k : Z) (value : bool) :
  seq_wfb (mkSeq v) = true -> bitslice_set v k value = Val v' ->
  seq_wfb (mkSeq v') = true.
Proof.
  intros Hwf Hs. apply seq_wfb_spec in Hwf as (H1 & H2 & H3 & H4 & H5). simpl in *.
  unfold bitslice_set in Hs.
  destruct ((0 <=? k) && (k <? bv_len v)); [|discriminate].
  inversion Hs; subst v'; clear Hs.
  pose proof (Z.mod_pos_bound k word_bits ltac:(unfold word_bits; lia)).
  assert (Hw : 0 <= word_at v k < usize_modulus).
  { unfold word_at. apply (Forall_nth (fun w => 0 <= w < usize_modulus)); [exact H5|].
    unfold usize_modulus. lia. }
  apply seq_wfb_intro; simpl; try assumption.
  - rewrite length_list_set. exact H4.
  - apply Forall_list_set; [exact H5|].
    unfold word_bits in *.
    destruct value; [apply setbit_in_range | apply clearbit_in_range]; auto; lia.
Qed.

Lemma set_keeps_wf (s s' : Seq) (pos : Z) (base : Dna) :
  seq_wfb s = true -> set s pos base = Val s' -> seq_wfb s' = true.
Proof.
  destruct s as [v]. intros Hwf Hset. unfold set in Hset. simpl in Hset.
  destruct (bitslice_set v _ _) as [v1| |] eqn:H1; simpl in Hset; try discriminate.
  destruct (bitslice_set v1 _ _) as [v2| |] eqn:H2; simpl in Hset; try discriminate.
  inversion Hset; subst s'.
  eapply bitslice_set_keeps_wf; [|exact H2].
  eapply bitslice_set_keeps_wf; [exact Hwf|exact H1].
Qed.

Lemma bitslice_set_shape (v v' : BitVec) (k : Z) (value : bool) :
  bitslice_set v k value = Val v' ->
  bv_len v' = bv_len v /\ List.length (bv_words v') = List.length (bv_words v).
Proof.
  unfold bitslice_set. destruct (_ && _); [|discriminate].
  intros H. inversion H; subst v'. simpl. split; [reflexivity|].
  apply length_list_set.
Qed.

(** [set] keeps a sequence well formed: a write that does not panic
    leaves the number of live bits (so the length) and the number of
    words unchanged, and every word a [usize]. *)
Theorem set_preserves_wf :
  forall (s s' : Seq) (pos : Z) (base : Dna),
  seq_wfb s = true -> set s pos base = Val s' ->
  seq_wfb s' = true /\ len s' = len s
  /\ bv_len (bv s') = bv_len (bv s)
  /\ List.length (bv_words (bv s')) = List.length (bv_words (bv s)).
Proof.
  intros s s' pos base Hwf Hset.
  pose proof (set_keeps_wf s s' pos base Hwf Hset) as Hwf'.
  destruct s as [v]. unfold set in Hset. simpl in Hset.
  destruct (bitslice_set v _ _) as [v1| |] eqn:H1; simpl in Hset; try discriminate.
  destruct (bitslice_set v1 _ _) as [v2| |] eqn:H2; simpl in Hset; try discriminate.
  inversion Hset; subst s'. clear Hset.
  apply bitslice_set_shape in H1 as [L1 W1]. apply bitslice_set_shape in H2 as [L2 W2].
  unfold len. simpl. rewrite L2, L1, W2, W1. auto.
Qed.

Lemma set_preserves_wf_witness :
  seq_wfb sample_seq = true /\ exists s', set sample_seq 5 G = Val s' /\ seq_wfb s' = true
    /\ len s' = len sample_seq.
Proof.
  split; [vm_compute; reflexivity|].
  exists (match set sample_seq 5 G with Val s' => s' | _ => sample_seq end).
  split; [vm_compute; reflexivity|].
  destruct (set_preserves_wf sample_seq
              (match set sample_seq 5 G with Val s' => s' | _ => sample_seq end) 5 G)
    as (Hw & Hl & _ & _); [vm_compute; reflexivity | vm_compute; reflexivity | ].
  split; [exact Hw | exact Hl].
Defined.

(** [set] does not compare [pos] with the length: on a well-formed
    sequence a position in [len..2^63) makes the bit slice panic. *)
Theorem set_out_of_range_panics :
  forall (s : Seq) (pos : Z) (base : Dna),
  seq_wfb s = true -> len s <= pos < 2 ^ 63 -> set s pos base = Panic.
Proof.
  intros s pos base Hwf Hpos.
  apply seq_wfb_spec in Hwf as (HL0 & Hev & Hmax & _ & _).
  unfold len, BITS in *. pose proof (Z.div_mod (bv_len (bv s)) 2 ltac:(lia)).
  unfold set. rewrite Z.shiftl_mul_pow2 by lia.
  rewrite Z.mod_small by (unfold usize_modulus; lia).
  unfold bitslice_set.
  replace (pos * 2 ^ 1 <? bv_len (bv s)) with false
    by (symmetry; apply Z.ltb_ge; change (2 ^ 1) with 2; lia).
  rewrite andb_false_r. reflexivity.
Qed.

Lemma set_out_of_range_panics_witness :
  seq_wfb sample_seq = true /\ set sample_seq 16 A = Panic.
Proof.
  assert (Hlen : len sample_seq = 16) by (vm_compute; reflexivity).
  split; [vm_compute; reflexivity|].
  apply set_out_of_range_panics; [vm_compute; reflexivity | lia].
Defined.

(** [pos << 1] wraps in [usize]: a position [pos >= 2^63] writes the
    slot of [pos - 2^63] instead of panicking. *)
Theorem set_position_wraps :
  forall (s : Seq) (pos : Z) (base : Dna),
  0 <= pos < 2 ^ 64 -> set s pos base = set s (pos mod 2 ^ 63) base.
Proof.
  intros s pos base Hpos. unfold set.
  assert (H : Z.shiftl pos 1 mod usize_modulus
              = Z.shiftl (pos mod 2 ^ 63) 1 mod usize_modulus).
  { rewrite !Z.shiftl_mul_pow2 by lia. unfold usize_modulus.
    pose proof (Z.mod_pos_bound pos (2 ^ 63) ltac:(lia)).
    rewrite (Z.mod_small (pos mod 2 ^ 63 * 2 ^ 1)) by lia.
    replace (2 ^ 64) with (2 * 2 ^ 63) by reflexivity.
    rewrite Z.mul_comm, Z.mul_mod_distr_l by lia. lia. }
  rewrite H. reflexivity.
Qed.

Lemma set_position_wraps_witness :
  set sample_seq (2 ^ 63 + 1) A = set sample_seq 1 A
  /\ set sample_seq (2 ^ 63 + 1) A <> Panic.
Proof.
  split.
  - apply (set_position_wraps sample_seq (2 ^ 63 + 1) A). lia.
  - vm_compute. discriminate.
Defined.

End SetExtras.

Section SetComposition.
Import DnaCodec PackedSeq.

(** The bits after an in-range [set]. *)
Lemma set_bits (s : Seq) (pos : Z) (base : Dna) :
  seq_wfb s = true -> 0 <= pos < len s ->
  exists s', set s pos base = Val s'
    /\ bv_len (bv s') = bv_len (bv s)
    /\ forall k, 0 <= k -> bit (bv s') k =
         if k =? 2 * pos + 1 then Z.testbit (to_bits base) 0
         else if k =? 2 * pos then Z.testbit (to_bits base) 1
         else bit (bv s) k.
Proof.
  intros Hwf Hpos.
  apply seq_wfb_spec in Hwf as (HL0 & Hev & Hmax & Hlen & _).
  unfold len, BITS in Hpos. unfold BITS in Hev.
  pose proof (Z.div_mod (bv_len (bv s)) 2 ltac:(lia)).
  unfold set.
  assert (Hoff : Z.shiftl pos 1 mod usize_modulus = 2 * pos).
  { rewrite Z.shiftl_mul_pow2 by lia. unfold usize_modulus in *.
    rewrite Z.mod_small; lia. }
  rewrite Hoff.
  destruct (bitslice_set_spec (bv s) (2 * pos) (negb (Z.land (to_bits base) 2 =? 0))
              ltac:(lia) Hlen) as (v1 & Hs1 & Hl1 & Hw1 & Hb1).
  rewrite Hs1. cbn [bind].
  destruct (bitslice_set_spec v1 (2 * pos + 1) (negb (Z.land (to_bits base) 1 =? 0))
              ltac:(lia) ltac:(rewrite Hw1, Hl1; exact Hlen)) as (v2 & Hs2 & Hl2 & Hw2 & Hb2).
  rewrite Hs2. cbn [bind].
  exists (mkSeq v2). cbn [bv]. split; [reflexivity|]. split; [congruence|].
  intros k Hk. rewrite Hb2, Hb1 by exact Hk. destruct base; reflexivity.
Qed.

Lemma seq_eqb_intro (s1 s2 : Seq) :
  bv_len (bv s1) = bv_len (bv s2) ->
  (forall k, 0 <= k -> bit (bv s1) k = bit (bv s2) k) ->
  seq_eqb s1 s2 = true.
Proof.
  intros Hl Hb. unfold seq_eqb. rewrite Hl, Z.eqb_refl. simpl.
  apply forallb_forall. intros k _. rewrite Hb by lia. apply eqb_reflx.
Qed.

Lemma len_set (s s' : Seq) :
  bv_len (bv s') = bv_len (bv s) -> len s' = len s.
Proof. unfold len. intros ->. reflexivity. Qed.

(** Two writes at the same in-range position: the last one wins, the
    result equals (symbol-wise) a single write of the last symbol. *)
Theorem set_last_write_wins :
  forall (s : Seq) (pos : Z) (a b : Dna),
  seq_wfb s = true -> 0 <= pos < len s ->
  exists s1 s2 s3,
    set s pos a = Val s1 /\ set s1 pos b = Val s2 /\ set s pos b = Val s3
    /\ seq_eqb s2 s3 = true.
Proof.
  intros s pos a b Hwf Hpos.
  destruct (set_bits s pos a Hwf Hpos) as (s1 & H1 & L1 & B1).
  pose proof (set_keeps_wf s s1 _ _ Hwf H1) as Hwf1.
  destruct (set_bits s1 pos b Hwf1 ltac:(rewrite (len_set s s1 L1); exact Hpos))
    as (s2 & H2 & L2 & B2).
  destruct (set_bits s pos b Hwf Hpos) as (s3 & H3 & L3 & B3).
  exists s1, s2, s3. repeat split; auto.
  apply seq_eqb_intro; [congruence|].
  intros k Hk. rewrite B2, B3, B1 by exact Hk.
  destruct (k =? 2 * pos + 1); [reflexivity|].
  destruct (k =? 2 * pos); reflexivity.
Qed.

(** Writes at two different in-range positions commute (symbol-wise). *)
Theorem set_distinct_commute :
  forall (s : Seq) (i j : Z) (a b : Dna),
  seq_wfb s = true -> 0 <= i < len s -> 0 <= j < len s -> i <> j ->
  exists s1 s2 t1 t2,
    set s i a = Val s1 /\ set s1 j b = Val s2
    /\ set s j b = Val t1 /\ set t1 i a = Val t2
    /\ seq_eqb s2 t2 = true.
Proof.
  intros s i j a b Hwf Hi Hj Hij.
  destruct (set_bits s i a Hwf Hi) as (s1 & H1 & L1 & B1).
  pose proof (set_keeps_wf s s1 _ _ Hwf H1) as Hwf1.
  destruct (set_bits s1 j b Hwf1 ltac:(rewrite (len_set s s1 L1); exact Hj))
    as (s2 & H2 & L2 & B2).
  destruct (set_bits s j b Hwf Hj) as (t1 & H3 & L3 & B3).
  pose proof (set_keeps_wf s t1 j b Hwf H3) as Hwf3.
  destruct (set_bits t1 i a Hwf3 ltac:(rewrite (len_set s t1 L3); exact Hi))
    as (t2 & H4 & L4 & B4).
  exists s1, s2, t1, t2. repeat split; auto.
  apply seq_eqb_intro; [congruence|].
  intros k Hk. rewrite B2, B4, B1, B3 by exact Hk.
  destruct (Z.eqb_spec k (2 * j + 1)), (Z.eqb_spec k (2 * j)),
           (Z.eqb_spec k (2 * i + 1)), (Z.eqb_spec k (2 * i)); try lia; reflexivity.
Qed.

Lemma set_last_write_wins_witness :
  seq_wfb sample_seq = true /\ 0 <= 4 < len sample_seq /\
  exists s1 s2 s3,
    set sample_seq 4 A = Val s1 /\ set s1 4 T = Val s2 /\ set sample_seq 4 T = Val s3
    /\ seq_eqb s2 s3 = true.
Proof.
  assert (Hlen : len sample_seq = 16) by (vm_compute; reflexivity).
  split; [vm_compute; reflexivity|]. split; [lia|].
  apply set_last_write_wins; [vm_compute; reflexivity | lia].
Defined.

Lemma set_distinct_commute_witness :
  seq_wfb sample_seq = true /\ 0 <= 2 < len sample_seq /\ 0 <= 9 < len sample_seq /\
  exists s1 s2 t1 t2,
    set sample_seq 2 G = Val s1 /\ set s1 9 C = Val s2
    /\ set sample_seq 9 C = Val t1 /\ set t1 2 G = Val t2
    /\ seq_eqb s2 t2 = true.
Proof.
  assert (Hlen : len sample_seq = 16) by (vm_compute; reflexivity).
  split; [vm_compute; reflexivity|]. split; [lia|]. split; [lia|].
  apply set_distinct_commute; [vm_compute; reflexivity | lia | lia | lia].
Defined.

End SetComposition.

(** ** The bincode adapter *)
Section BincodeExtras.
Import DnaCodec PackedSeq Bincode.

Lemma decode_encode_wf (s : Seq) (rest : list Z) :
  seq_wfb s = true -> decode (encode s ++ rest) = inl (s, rest).
Proof.
  intros Hwf.
  pose proof (seq_wfb_spec s Hwf) as (HL0 & Hev & Hmax & Hlen & Hws).
  destruct s as [[L ws]]. simpl in *. unfold BITS in Hev.
  unfold decode, encode, into_raw, len, BITS. simpl.
  pose proof (Z.div_mod L 2 ltac:(lia)).
  rewrite <- app_assoc, varint_roundtrip by (unfold usize_modulus in Hmax;
    split; [apply Z.div_pos|apply (Z.le_lt_trans _ L)]; try lia;
    apply Z.div_le_upper_bound; lia).
  rewrite decode_usize_vec_roundtrip; [| | exact Hws].
  - unfold from_raw, BITS. replace (L / 2 * 2) with L by lia.
    rewrite <- Hlen, Z.ltb_irrefl, Nat2Z.id, firstn_all. reflexivity.
  - rewrite Hlen. unfold ceil_div, word_bits, usize_modulus in *.
    apply Z.div_lt_upper_bound; lia.
Qed.

(** A length whose words are missing is rejected with the fixed
    [DecodeError::Other] message, not read out of bounds. *)
Theorem decode_rejects_missing_words :
  forall (n : Z) (ws rest : list Z),
  0 <= n < usize_modulus ->
  Z.of_nat (List.length ws) < usize_modulus ->
  Forall (fun w => 0 <= w < usize_modulus) ws ->
  Z.of_nat (List.length ws) < ceil_div (n * BITS) word_bits ->
  decode (varint_encode_u64 n ++ encode_usize_vec ws ++ rest)
    = inr (Other reconstruction_failed).
Proof.
  intros n ws rest Hn Hlen Hws Hfew. unfold decode.
  rewrite varint_roundtrip by (unfold usize_modulus in Hn; lia).
  rewrite decode_usize_vec_roundtrip by assumption.
  unfold from_raw. replace (Z.of_nat (List.length ws) <? ceil_div (n * BITS) word_bits)
    with true by (symmetry; apply Z.ltb_lt; exact Hfew).
  reflexivity.
Qed.

Lemma decode_rejects_missing_words_witness :
  decode (varint_encode_u64 40 ++ encode_usize_vec [7] ++ [])
    = inr (Other reconstruction_failed).
Proof.
  apply decode_rejects_missing_words.
  - unfold usize_modulus. lia.
  - unfold usize_modulus. simpl. lia.
  - repeat constructor; unfold usize_modulus; lia.
  - vm_compute. reflexivity.
Defined.

Lemma le_read_ext (k : nat) :
  forall l e v r, le_read k l = inl (v, r) -> le_read k (l ++ e) = inl (v, r ++ e).
Proof.
  induction k as [|k IH]; intros l e v r H; simpl in *.
  - inversion H; subst. reflexivity.
  - destruct l as [|b l]; [discriminate|]. simpl.
    destruct (le_read k l) as [[v' r']|err] eqn:Hk; [|discriminate].
    rewrite (IH l e v' r' Hk). inversion H; subst. reflexivity.
Qed.

Lemma varint_decode_ext (l e : list Z) (v : Z) (r : list Z) :
  varint_decode_u64 l = inl (v, r) -> varint_decode_u64 (l ++ e) = inl (v, r ++ e).
Proof.
  unfold varint_decode_u64. destruct l as [|b l]; [discriminate|]. cbn [app].
  destruct (b <=? SINGLE_BYTE_MAX); [intros H; inversion H; subst; reflexivity|].
  destruct (b =? U16_BYTE); [apply le_read_ext|].
  destruct (b =? U32_BYTE); [apply le_read_ext|].
  destruct (b =? U64_BYTE); [apply le_read_ext|]. discriminate.
Qed.

Lemma decode_usizes_ext (c : nat) :
  forall l e ws r, decode_usizes c l = inl (ws, r) ->
  decode_usizes c (l ++ e) = inl (ws, r ++ e).
Proof.
  induction c as [|c IH]; intros l e ws r H; simpl in *.
  - inversion H; subst. reflexivity.
  - destruct (varint_decode_u64 l) as [[w r1]|err] eqn:H1; [|discriminate].
    rewrite (varint_decode_ext l e w r1 H1).
    destruct (decode_usizes c r1) as [[ws' r2]|err] eqn:H2; [|discriminate].
    rewrite (IH r1 e ws' r2 H2). inversion H; subst. reflexivity.
Qed.

Lemma decode_ext (l e : list Z) (s : Seq) (r : list Z) :
  decode l = inl (s, r) -> decode (l ++ e) = inl (s, r ++ e).
Proof.
  unfold decode, decode_usize_vec.
  destruct (varint_decode_u64 l) as [[n r1]|err] eqn:H1; [|discriminate].
  rewrite (varint_decode_ext l e n r1 H1).
  destruct (varint_decode_u64 r1) as [[m r2]|err] eqn:H2; [|discriminate].
  rewrite (varint_decode_ext r1 e m r2 H2).
  destruct (decode_usizes (Z.to_nat m) r2) as [[ws r3]|err] eqn:H3; [|discriminate].
  rewrite (decode_usizes_ext _ r2 e ws r3 H3).
  destruct (from_raw n ws); [|discriminate].
  intros H; inversion H; subst. reflexivity.
Qed.

(** Decoding a strict prefix of the encoding of a well-formed sequence
    (a truncated message) is an error, never a shorter sequence. *)
Theorem decode_truncated_fails :
  forall (s : Seq) (p e : list Z),
  seq_wfb s = true -> p ++ e = encode s -> e <> [] ->
  exists err, decode p = inr err.
Proof.
  intros s p e Hwf Hpe Hne.
  destruct (decode p) as [[v r]|err] eqn:Hd; [|eauto].
  exfalso. apply (decode_ext p e) in Hd.
  rewrite Hpe, <- (app_nil_r (encode s)), decode_encode_wf in Hd by exact Hwf.
  inversion Hd as [[Hv Hr]].
  apply Hne. destruct r; [exact (eq_sym Hr)|discriminate].
Qed.

Lemma decode_truncated_fails_witness :
  exists err, decode (removelast (encode sample_seq)) = inr err.
Proof.
  apply (decode_truncated_fails sample_seq _ [last (encode sample_seq) 0]).
  - vm_compute. reflexivity.
  - vm_compute. reflexivity.
  - discriminate.
Defined.

End BincodeExtras.

(** ** The derive macro *)
Section DeriveExtras.
Import Derive.

Lemma find_bits_result (attrs : list Attribute) (mw w : Z) :
  find_bits attrs mw = Val (inl w) -> w = mw \/ (mw <= w <= 255).
Proof.
  induction attrs as [|a rest IH]; simpl.
  - intros H. inversion H. auto.
  - destruct (String.eqb (attr_path a) "bits"); [|exact IH].
    destruct (parse_lit_int a) as [v|]; [|discriminate].
    unfold base10_parse_u8_unwrap, u8_max.
    destruct ((0 <=? v) && (v <=? 255)) eqn:Hv; simpl; [|discriminate].
    destruct (v <? mw) eqn:Hlt; [discriminate|].
    intros H. inversion H; subst. right. lia.
Qed.

Lemma log2_up_u8 (m : Z) : 0 <= m <= 254 -> 0 <= Z.log2_up (m + 1) <= 8.
Proof.
  intros Hm. split; [apply Z.log2_up_nonneg|].
  change 8 with (Z.log2_up 256). apply Z.log2_up_le_mono. lia.
Qed.

(** Whatever the attributes, a width that [parse_width] resolves for a
    largest code up to 254 is a [u8] at least [ceil(log2(max + 1))]. *)
Theorem parse_width_result_bounds :
  forall (dbg : bool) (attrs : list Attribute) (m w : Z),
  0 <= m <= 254 -> parse_width dbg attrs m = Val (inl w) ->
  Z.log2_up (m + 1) <= w <= 255.
Proof.
  intros dbg attrs m w Hm H. unfold parse_width in H.
  rewrite u8_add_no_overflow in H by (unfold u8_max; lia). simpl in H.
  rewrite min_width_below_255 in H by lia.
  pose proof (log2_up_u8 m Hm).
  apply find_bits_result in H as [->|H]; lia.
Qed.

Lemma parse_width_result_bounds_witness :
  parse_width false [mkAttr "bits" (Lits [LitInt 5])] 20 = Val (inl 5)
  /\ Z.log2_up (20 + 1) <= 5 <= 255.
Proof.
  split; [reflexivity|].
  apply (parse_width_result_bounds false [mkAttr "bits" (Lits [LitInt 5])] 20 5);
    [lia | reflexivity].
Defined.

(** When the first [bits] attribute does not hold a single integer
    literal, [parse_width] returns the parse error instead of falling
    back to the minimal width. *)
Theorem parse_width_bad_bits_argument :
  forall (dbg : bool) (pre post : list Attribute) (args : AttrArgs) (m : Z),
  0 <= m <= 254 ->
  forallb (fun a => negb (String.eqb (attr_path a) "bits")) pre = true ->
  parse_lit_int (mkAttr "bits" args) = None ->
  parse_width dbg (pre ++ mkAttr "bits" args :: post) m = Val (inr ParseError).
Proof.
  intros dbg pre post args m Hm Hpre Hargs. unfold parse_width.
  rewrite u8_add_no_overflow by (unfold u8_max; lia). simpl.
  rewrite find_bits_skip by exact Hpre. simpl. rewrite Hargs. reflexivity.
Qed.

Lemma parse_width_bad_bits_argument_witness :
  parse_width true [mkAttr "bits" (Lits [LitStr "two"])] 3 = Val (inr ParseError).
Proof.
  apply (parse_width_bad_bits_argument true [] [] (Lits [LitStr "two"]) 3);
    [lia | reflexivity | reflexivity].
Defined.

Lemma step_idents_max (acc acc' : CodecVariants) (v : Variant) :
  step acc v = Val (inl acc') ->
  idents acc' = idents acc ++ [v_ident v]
  /\ max_discriminant acc' = Z.max (max_discriminant acc) (expected_code v).
Proof.
  unfold step. intros H.
  destruct (discriminant_value v) as [[x|e]| |] eqn:Hd; simpl in H; try discriminate.
  apply discriminant_value_ok in Hd. subst x.
  destruct (first_byte_unwrap (v_ident v)); simpl in H; try discriminate.
  destruct (scan_attrs _ _ _ _ _) as [[[[cr a2] u2]|e]| |];
    simpl in H; try discriminate.
  inversion H; subst. auto.
Qed.

Lemma parse_variants_from_idents_max (vs : list Variant) :
  forall acc cv, parse_variants_from acc vs = Val (inl cv) ->
  idents cv = idents acc ++ map v_ident vs
  /\ max_discriminant cv = fold_left Z.max (map expected_code vs) (max_discriminant acc).
Proof.
  induction vs as [|v rest IH]; intros acc cv H; simpl in *.
  - inversion H; subst. rewrite app_nil_r. auto.
  - destruct (step acc v) as [[acc'|e]| |] eqn:Hs; simpl in H; try discriminate.
    apply step_idents_max in Hs as (H1 & H2).
    apply IH in H as (G1 & G2). rewrite G1, G2, H1, H2, <- app_assoc. auto.
Qed.

(** A successful [parse_variants] lists the identifiers in declaration
    order and reports as [max_discriminant] the largest code (0 when
    all codes are 0). *)
Theorem parse_variants_idents_max :
  forall (vs : list Variant) (cv : CodecVariants),
  parse_variants vs = Val (inl cv) ->
  idents cv = map v_ident vs
  /\ max_discriminant cv = fold_left Z.max (map expected_code vs) 0.
Proof.
  intros vs cv H. apply parse_variants_from_idents_max in H. exact H.
Qed.

Lemma parse_variants_idents_max_witness :
  parse_variants sample_variants = Val (inl sample_codec_variants)
  /\ max_discriminant sample_codec_variants = fold_left Z.max (map expected_code sample_variants) 0.
Proof.
  split; [reflexivity|].
  exact (proj2 (parse_variants_idents_max sample_variants sample_codec_variants eq_refl)).
Defined.

(** The first error stops [parse_variants]: an error or a panic on a
    prefix of the variants is the result for any continuation. *)
Theorem parse_variants_first_error_wins :
  forall (pre post : list Variant),
  (forall e, parse_variants pre = Val (inr e) -> parse_variants (pre ++ post) = Val (inr e))
  /\ (parse_variants pre = Panic -> parse_variants (pre ++ post) = Panic).
Proof.
  intros pre post. unfold parse_variants. rewrite parse_variants_from_app.
  split; [intros e H | intros H]; rewrite H; reflexivity.
Qed.

(** A symbol without a literal discriminant, after accepted symbols,
    makes [parse_variants] return [MissingDiscriminant]. *)
Theorem parse_variants_missing_discriminant :
  forall (pre post : list Variant) (v : Variant) (cv : CodecVariants),
  parse_variants pre = Val (inl cv) ->
  (v_discriminant v = None \/ v_discriminant v = Some ExprOther) ->
  parse_variants (pre ++ v :: post) = Val (inr MissingDiscriminant).
Proof.
  intros pre post v cv Hpre Hd. unfold parse_variants in *.
  rewrite parse_variants_from_app, Hpre. simpl.
  unfold step, discriminant_value. destruct Hd as [Hd|Hd]; rewrite Hd; reflexivity.
Qed.

Lemma parse_variants_missing_discriminant_witness :
  parse_variants ([mkVariant "A" (Some (ExprLit (LitInt 0))) []] ++
                  mkVariant "C" None [] :: []) = Val (inr MissingDiscriminant).
Proof.
  apply (parse_variants_missing_discriminant _ _ _
           (match parse_variants [mkVariant "A" (Some (ExprLit (LitInt 0))) []] with
            | Val (inl cv) => cv | _ => mkCodecVariants [] [] [] [] [] 0 end));
    [reflexivity | left; reflexivity].
Defined.

Lemma scan_attrs_not_panic (ident : string) (attrs : list Attribute) :
  forall c a u, exists r, scan_attrs ident attrs c a u = Val r.
Proof.
  induction attrs as [|att rest IH]; intros c a u; simpl; [eauto|].
  destruct (String.eqb (attr_path att) "display");
    [destruct (parse_lit_char att); eauto|].
  destruct (String.eqb (attr_path att) "alt");
    [destruct (parse_expr_lits att); eauto|]. eauto.
Qed.

(** [parse_variants] never has undefined behaviour, and it panics only
    on a symbol whose integer code is outside [0..=255] (the [unwrap] of
    [base10_parse::<u8>]) or whose name is empty; every other failure is
    a returned error. *)
Theorem parse_variants_panic_causes :
  forall vs : list Variant,
  parse_variants vs <> Undefined
  /\ (parse_variants vs = Panic ->
      exists v, In v vs /\
        ((exists n, v_discriminant v = Some (ExprLit (LitInt n)) /\ ~ (0 <= n <= 255))
         \/ v_ident v = EmptyString)).
Proof.
  intros vs. unfold parse_variants. generalize (mkCodecVariants [] [] [] [] [] 0).
  induction vs as [|v rest IH]; intros acc; simpl; [split; discriminate|].
  unfold step at 1 2.
  destruct (discriminant_value v) as [[x|e]| |] eqn:Hd; simpl.
  - destruct (first_byte_unwrap (v_ident v)) as [c0| |] eqn:Hf; simpl.
    + destruct (scan_attrs_not_panic (v_ident v) (v_attrs v) c0
                  (alts acc ++ [(PatU8 x, v_ident v)])
                  (unsafe_alts acc ++ [(PatU8 x, v_ident v)])) as [r Hr].
      rewrite Hr. simpl. destruct r as [[[cr a2] u2]|e]; simpl; [|split; discriminate].
      destruct (IH (mkCodecVariants (idents acc ++ [v_ident v])
                      (to_chars acc ++ [(v_ident v, cr)])
                      (from_chars acc ++ [(cr, v_ident v)]) a2 u2
                      (Z.max (max_discriminant acc) x))) as [HU HP].
      split; [exact HU|]. intros H. destruct (HP H) as (w & Hw & Hc).
      exists w. split; [right; exact Hw | exact Hc].
    + split; [discriminate|]. intros _. exists v. split; [left; reflexivity|].
      right. destruct (v_ident v); [reflexivity|discriminate].
    + destruct (v_ident v); discriminate.
  - split; discriminate.
  - split; [discriminate|]. intros _. exists v. split; [left; reflexivity|].
    left. unfold discriminant_value in Hd.
    destruct (v_discriminant v) as [[l|]|]; try discriminate.
    destruct l; try discriminate. exists v0. split; [reflexivity|].
    unfold base10_parse_u8_unwrap, u8_max in Hd.
    destruct ((0 <=? v0) && (v0 <=? 255)) eqn:Hb; simpl in Hd; [discriminate|]. lia.
  - exfalso. unfold discriminant_value in Hd.
    destruct (v_discriminant v) as [[l|]|]; try discriminate.
    destruct l; try discriminate.
    unfold base10_parse_u8_unwrap in Hd. destruct (_ && _); discriminate.
Qed.

End DeriveExtras.
